(** * VisitsInIntervalMetric: the window evaluator of mafContrib

    A shallow embedding of [src/mafContrib/VisitsInIntervalMetric.py] and the
    properties of its construction checks and of [run].

    Timestamps and durations are Python/numpy floats in the source.  They are
    modelled as rationals [Q]: every comparison of the source is exact on
    them, and the two arithmetic operations ([ti0 + intervalLength] and the
    difference matrix [x - x.T]) are taken without rounding.  NaN and the
    infinities are outside the model.  Integer parameters are [Z]. *)

From Stdlib Require Import String QArith Qminmax ZArith List Bool Lia Lqa.
From Stdlib Require Import Permutation Sorted.
Import ListNotations.

Open Scope Q_scope.

(** ** Exceptions and results *)

(** The exceptions the modelled code can raise. *)
Inductive exn : Set :=
| AssertionError
| NameError
| IndexError.

(** What a call produces: a returned value or a raised exception. *)
Inductive outcome (A : Type) : Type :=
| Return (a : A)
| Raise (e : exn).
Arguments Return {A} a.
Arguments Raise {A} e.

(** One pass through the body of a [for] loop: either the body ends (or
    executes [continue]) and the loop goes on with the updated local
    variables, or the body leaves the function by [return] or by an
    exception. *)
Inductive flow (S A : Type) : Type :=
| Next (s : S)
| Exit (r : outcome A).
Arguments Next {S A} s.
Arguments Exit {S A} r.

(** [for x in xs: body], with the local variables [s] threaded through.
    [Next s] is the loop running to completion. *)
Fixpoint for_each {X S A : Type} (body : X -> S -> flow S A)
         (xs : list X) (s : S) : flow S A :=
  match xs with
  | [] => Next s
  | x :: xs' =>
      match body x s with
      | Next s' => for_each body xs' s'
      | Exit r => Exit r
      end
  end.


(** ** Configuration ([__init__]) *)

Record config : Set := mkConfig {
  intervalLength : Q;
  minVisits : Z;
  nPairs : Z;
  minPairGap : Q;
  timeCol : string
}.

(** [VisitsInIntervalMetric.__init__]: the four assertions, in order, then the
    fields are stored. *)
Definition init (intervalLength : Q) (minVisits nPairs : Z) (minPairGap : Q)
           (timeCol : string) : outcome config :=
  if negb (2 <=? minVisits)%Z then Raise AssertionError
  else if negb (0 <=? nPairs)%Z then Raise AssertionError
  else if negb (Qle_bool 0 minPairGap) then Raise AssertionError
  else if negb (nPairs <=? minVisits + 1)%Z then Raise AssertionError
  else Return (mkConfig intervalLength minVisits nPairs minPairGap timeCol).

(** A configuration an evaluator can hold: one that construction accepts. *)
Definition valid (cfg : config) : Prop :=
  init (intervalLength cfg) (minVisits cfg) (nPairs cfg) (minPairGap cfg)
       (timeCol cfg) = Return cfg.

(** ** The observation batch *)

(** A record of the structured array [dataSlice]: the value of the column
    named by [timeCol], and the values of the remaining columns in the order
    of the dtype. *)
Record visit : Set := mkVisit {
  time : Q;
  others : list Q
}.

(** Lexicographic comparison of field values. *)
Fixpoint lex_leb (xs ys : list Q) : bool :=
  match xs, ys with
  | [], _ => true
  | _ :: _, [] => false
  | x :: xs', y :: ys' =>
      if Qeq_bool x y then lex_leb xs' ys' else Qle_bool x y
  end.

(** The order of [sort(order=timeCol)]: the named column first; numpy breaks
    ties with the unnamed fields in dtype order. *)
Definition visit_leb (a b : visit) : bool :=
  lex_leb (time a :: others a) (time b :: others b).

Fixpoint insert (v : visit) (l : list visit) : list visit :=
  match l with
  | [] => [v]
  | h :: tl => if visit_leb v h then v :: l else h :: insert v tl
  end.

(** [dataSlice.sort(order=self.timeCol)], as the array it leaves behind. *)
Fixpoint sort (l : list visit) : list visit :=
  match l with
  | [] => []
  | h :: tl => insert h (sort tl)
  end.

(** Ascending order of the time column. *)
Definition time_le (a b : visit) : Prop := time a <= time b.

(** [dataSlice[self.timeCol]] *)
Definition column (ds : list visit) : list Q := map time ds.

(** A batch that has only the time column. *)
Definition of_times (ts : list Q) : list visit :=
  map (fun t => mkVisit t []) ts.

(** ** numpy operations used by [run] *)

(** [(t >= ti0) & (t <= timax)] *)
Definition mask (t : list Q) (ti0 timax : Q) : list bool :=
  map (fun x => Qle_bool ti0 x && Qle_bool x timax) t.

(** [np.sum(w)] of a boolean array *)
Definition np_sum (w : list bool) : Z :=
  Z.of_nat (count_occ bool_dec w true).

(** [t[w]], boolean-mask indexing *)
Fixpoint select (t : list Q) (w : list bool) : list Q :=
  match t, w with
  | x :: t', b :: w' => if b then x :: select t' w' else select t' w'
  | _, _ => []
  end.

(** [x = np.resize(tw, (len(tw), len(tw)))]: entry [(i, j)] is element
    [(i * n + j) mod n] of [tw] (the data is repeated in row-major order). *)
Definition resized (tw : list Q) (i j : nat) : Q :=
  nth ((i * length tw + j) mod length tw) tw 0.

(** [dt = x - x.T] *)
Definition dt (tw : list Q) (i j : nat) : Q :=
  resized tw i j - resized tw j i.

(** [dt[i, j]], with the bounds check of indexing *)
Definition dt_at (tw : list Q) (i j : nat) : outcome Q :=
  if ((i <? length tw) && (j <? length tw))%nat then Return (dt tw i j)
  else Raise IndexError.

(** [dt[i, pairStart:]]: the row index is checked, the slice is clipped *)
Definition dt_row_from (tw : list Q) (i pairStart : nat) : outcome (list Q) :=
  if (i <? length tw)%nat
  then Return (map (dt tw i) (seq pairStart (length tw - pairStart)))
  else Raise IndexError.

(** [np.where(row >= gap)[0]], the indices numbered from [k] *)
Fixpoint where_ge (row : list Q) (gap : Q) (k : nat) : list nat :=
  match row with
  | [] => []
  | d :: row' =>
      if Qle_bool gap d then k :: where_ge row' gap (S k)
      else where_ge row' gap (S k)
  end.

(** ** [run] *)

(** The local variables of the pair loop. *)
Record pair_state : Set := mkPairState {
  pairStart : nat;
  nPairsFound : Z
}.

(** Body of [for i in range(len(tw))] (source lines 87-101). *)
Definition pair_body (cfg : config) (tw : list Q) (i : nat) (st : pair_state)
  : flow pair_state bool :=
  if (i <? pairStart st)%nat then Next st
  else
    match dt_at tw i (pairStart st) with
    | Raise e => Exit (Raise e)
    | Return d =>
        if negb (Qeq_bool d 0) then Exit (Raise AssertionError)
        else
          match dt_row_from tw i (pairStart st) with
          | Raise e => Exit (Raise e)
          | Return row =>
              match where_ge row (minPairGap cfg) 0 with
              | k :: _ =>
                  let found := (nPairsFound st + 1)%Z in
                  if (nPairs cfg <=? found)%Z then Exit (Return true)
                  else Next (mkPairState (pairStart st + k) found)
              | [] => Next (mkPairState (pairStart st + 1) (nPairsFound st))
              end
          end
    end.

(** The pair loop with its initialisation (source lines 84-101). *)
Definition pair_loop (cfg : config) (tw : list Q) : flow pair_state bool :=
  for_each (pair_body cfg tw) (seq 0 (length tw)) (mkPairState 0 0).

(** Body of [for ti0 in t] (source lines 69-102).  The [return False] of line
    102 is the last statement of this body. *)
Definition anchor_body (cfg : config) (t : list Q) (ti0 : Q) (_ : unit)
  : flow unit bool :=
  let timax := ti0 + intervalLength cfg in
  let w := mask t ti0 timax in
  if (minVisits cfg <=? np_sum w)%Z then
    if (nPairs cfg =? 0)%Z || Qeq_bool (minPairGap cfg) 0
    then Exit (Return true)
    else
      let tw := select t w in
      match pair_loop cfg tw with
      | Exit r => Exit r
      | Next _ => Exit (Return false)
      end
  else Exit (Return false).

(** The evaluation on the time column: the anchor loop, then line 104, which
    reads the name [result] that nothing defines. *)
Definition evaluate (cfg : config) (t : list Q) : outcome bool :=
  match for_each (anchor_body cfg t) t tt with
  | Exit r => r
  | Next _ => Raise NameError
  end.

(** [VisitsInIntervalMetric.run]: the caller's array after the call, and the
    result of the call. *)
Definition run (cfg : config) (dataSlice : list visit)
  : list visit * outcome bool :=
  let dataSlice' := sort dataSlice in
  (dataSlice', evaluate cfg (column dataSlice')).

(** The two evaluators of [test()]. *)
Definition m1 : config := mkConfig 45 3 0 0 "expMJD"%string.
Definition m2 : config := mkConfig 45 3 2 2 "expMJD"%string.

(** ** The evaluation contract, in the words of the specification *)

(** Membership of the window [[t0, t0 + L]]. *)
Definition in_window (t0 L x : Q) : bool :=
  Qle_bool t0 x && Qle_bool x (t0 + L).

(** [W = { x in t : t0 <= x <= t0 + L }], in the order of [t]. *)
Definition window (t : list Q) (t0 L : Q) : list Q :=
  filter (in_window t0 L) t.

(** Position in [l] of the first timestamp at least [gap] after [a]. *)
Fixpoint first_gap (gap a : Q) (l : list Q) : option nat :=
  match l with
  | [] => None
  | b :: l' =>
      if Qle_bool gap (b - a) then Some O
      else option_map S (first_gap gap a l')
  end.

(** The greedy pair counter of the specification: the left endpoint [a] is
    paired with the first later timestamp [b] at least [gap] after it, and the
    search resumes from [b]; a left endpoint without a partner is given up and
    the next timestamp is tried. *)
Fixpoint greedy_pairs (gap : Q) (W : list Q) : nat :=
  match W with
  | [] => O
  | a :: rest =>
      (fix scan (l : list Q) : nat :=
         match l with
         | [] => greedy_pairs gap rest
         | b :: l' =>
             if Qle_bool gap (b - a) then S (greedy_pairs gap l) else scan l'
         end) rest
  end.

(** Pair checking is enabled when [nPairs > 0] and [minPairGap > 0]. *)
Definition pairs_enabled (cfg : config) : bool :=
  (0 <? nPairs cfg)%Z && negb (Qle_bool (minPairGap cfg) 0).

(** The anchor [t0] succeeds: its window holds [minVisits] timestamps and,
    when pair checking is enabled, the greedy counter finds [nPairs] pairs. *)
Definition window_passes (cfg : config) (t : list Q) (t0 : Q) : bool :=
  let W := window t t0 (intervalLength cfg) in
  (minVisits cfg <=? Z.of_nat (length W))%Z
  && (if pairs_enabled cfg
      then (nPairs cfg <=? Z.of_nat (greedy_pairs (minPairGap cfg) W))%Z
      else true).

(** Some anchor of [t] succeeds. *)
Definition any_anchor_passes (cfg : config) (t : list Q) : bool :=
  existsb (window_passes cfg t) t.

(** The minimum of a non-empty sequence [x :: t]. *)
Definition earliest (x : Q) (t : list Q) : Q := fold_left Qmin t x.

(** The result of the single window anchored at the earliest timestamp. *)
Definition first_anchor_result (cfg : config) (t : list Q) : option bool :=
  match t with
  | [] => None
  | x :: t' => Some (window_passes cfg t (earliest x t'))
  end.

(** ** Pairs of a window *)

(** [p = (a, b)] indexes a chronologically ordered pair of [W] whose
    timestamps are at least [gap] apart. *)
Definition gap_pair (gap : Q) (W : list Q) (p : nat * nat) : Prop :=
  (fst p < snd p < length W)%nat /\ gap <= nth (snd p) W 0 - nth (fst p) W 0.


(** Each pair starts at or after the occurrence where the previous one ends
    (the right element of a pair may be the left element of the next). *)
Fixpoint consecutive_pairs (ps : list (nat * nat)) : Prop :=
  match ps with
  | p :: (q :: _) as tl => (snd p <= fst q)%nat /\ consecutive_pairs tl
  | _ => True
  end.

(** The pair [p] of a suffix of [W], as a pair of [W]: [d] is the number of
    timestamps before the suffix. *)
Definition shift (d : nat) (p : nat * nat) : nat * nat :=
  (d + fst p, d + snd p)%nat.



(** ** The assertion of the pair loop *)



(** ** Notions used by the further properties *)

(** The order of the sort, as a relation. *)
Definition visit_le (a b : visit) : Prop := visit_leb a b = true.


(** The index of occurrence [i] after one more timestamp is put at index
    [k]. *)
Definition bump (k i : nat) : nat := if (i <? k)%nat then i else S i.


(** * Properties *)

(** ** Boolean comparisons on [Q] *)

Lemma Qle_bool_false (x y : Q) : Qle_bool x y = false <-> y < x.
Proof.
  split; intro H.
  - apply Qnot_le_lt. intro Hle. apply Qle_bool_iff in Hle. congruence.
  - destruct (Qle_bool x y) eqn:E; [|reflexivity].
    apply Qle_bool_iff in E. exfalso. lra.
Qed.

Lemma Qeq_bool_false (x y : Q) : Qeq_bool x y = false <-> ~ x == y.
Proof.
  split; intro H.
  - intro He. apply Qeq_bool_iff in He. congruence.
  - destruct (Qeq_bool x y) eqn:E; [|reflexivity].
    apply Qeq_bool_iff in E. contradiction.
Qed.

(** Moves every boolean comparison of the context to its proposition. *)
Ltac qbool :=
  repeat match goal with
  | H : Qle_bool _ _ = true |- _ => apply Qle_bool_iff in H
  | H : Qle_bool _ _ = false |- _ => apply Qle_bool_false in H
  | H : Qeq_bool _ _ = true |- _ => apply Qeq_bool_iff in H
  | H : Qeq_bool _ _ = false |- _ => apply Qeq_bool_false in H
  | H : _ && _ = true |- _ => apply andb_prop in H; destruct H
  end.

(** ** The sort *)

Lemma visit_leb_true (a b : visit) : visit_leb a b = true -> time_le a b.
Proof.
  unfold visit_leb, time_le; simpl.
  destruct (Qeq_bool (time a) (time b)) eqn:E; intro H; qbool; lra.
Qed.

Lemma visit_leb_false (a b : visit) : visit_leb a b = false -> time_le b a.
Proof.
  unfold visit_leb, time_le; simpl.
  destruct (Qeq_bool (time a) (time b)) eqn:E; intro H; qbool; lra.
Qed.

Lemma insert_perm (v : visit) (l : list visit) :
  Permutation (v :: l) (insert v l).
Proof.
  induction l as [|h tl IH]; simpl.
  - apply Permutation_refl.
  - destruct (visit_leb v h).
    + apply Permutation_refl.
    + apply perm_trans with (h :: v :: tl).
      * apply perm_swap.
      * apply perm_skip, IH.
Qed.

Lemma sort_perm (l : list visit) : Permutation l (sort l).
Proof.
  induction l as [|h tl IH]; simpl.
  - apply perm_nil.
  - apply perm_trans with (h :: sort tl).
    + apply perm_skip, IH.
    + apply insert_perm.
Qed.

Lemma insert_sorted (v : visit) (l : list visit) :
  StronglySorted time_le l -> StronglySorted time_le (insert v l).
Proof.
  induction 1 as [|h tl Hs IH Hall]; simpl.
  - repeat constructor.
  - destruct (visit_leb v h) eqn:E.
    + apply visit_leb_true in E.
      constructor; [constructor; assumption|].
      constructor; [exact E|].
      eapply Forall_impl; [|exact Hall].
      unfold time_le in *; intros x Hx; lra.
    + apply visit_leb_false in E.
      constructor; [exact IH|].
      eapply Permutation_Forall; [apply insert_perm|].
      constructor; assumption.
Qed.

Lemma sort_sorted (l : list visit) : StronglySorted time_le (sort l).
Proof.
  induction l as [|h tl IH]; simpl.
  - constructor.
  - apply insert_sorted, IH.
Qed.

Lemma column_sorted (l : list visit) :
  StronglySorted time_le l -> StronglySorted Qle (column l).
Proof.
  induction 1 as [|h tl Hs IH Hall]; simpl; constructor.
  - exact IH.
  - unfold column. apply Forall_map. exact Hall.
Qed.

Lemma sort_nonempty (l : list visit) : l <> [] -> sort l <> [].
Proof.
  intros Hl Hs. apply Hl.
  apply Permutation_nil, Permutation_sym.
  rewrite <- Hs. apply sort_perm.
Qed.

(** ** Mask, sum and selection are a filter *)

Lemma select_mask (t : list Q) (ti0 L : Q) :
  select t (mask t ti0 (ti0 + L)) = window t ti0 L.
Proof.
  unfold window, in_window.
  induction t as [|x t IH]; simpl; [reflexivity|].
  rewrite IH. reflexivity.
Qed.

Lemma np_sum_mask (t : list Q) (ti0 L : Q) :
  np_sum (mask t ti0 (ti0 + L)) = Z.of_nat (length (window t ti0 L)).
Proof.
  unfold np_sum, window, in_window. f_equal.
  induction t as [|x t IH]; simpl; [reflexivity|].
  destruct (Qle_bool ti0 x && Qle_bool x (ti0 + L)); simpl.
  - destruct (bool_dec true true); [|congruence]. now rewrite IH.
  - destruct (bool_dec false true); [congruence|]. exact IH.
Qed.

(** ** The difference matrix *)

Lemma resized_row (tw : list Q) (i j : nat) :
  (j < length tw)%nat -> resized tw i j = nth j tw 0.
Proof.
  intro Hj. unfold resized.
  rewrite Nat.add_comm, Nat.Div0.mod_add, Nat.mod_small; auto.
Qed.

Lemma dt_diff (tw : list Q) (i j : nat) :
  (i < length tw)%nat -> (j < length tw)%nat ->
  dt tw i j = nth j tw 0 - nth i tw 0.
Proof.
  intros Hi Hj. unfold dt. now rewrite !resized_row.
Qed.

Lemma dt_row_skipn (tw : list Q) (i p : nat) :
  (i < length tw)%nat ->
  map (dt tw i) (seq p (length tw - p))
  = map (fun x => x - nth i tw 0) (skipn p tw).
Proof.
  intro Hi.
  assert (G : forall (l : list Q) p,
             (forall j, (p <= j < p + length l)%nat -> nth (j - p) l 0 = nth j tw 0) ->
             (p + length l <= length tw)%nat ->
             map (dt tw i) (seq p (length l))
             = map (fun x => x - nth i tw 0) l).
  { induction l as [|x l IH]; intros q Hn Hlen; simpl in *; [reflexivity|].
    f_equal.
    - rewrite dt_diff by lia.
      rewrite <- (Hn q) by lia. now rewrite Nat.sub_diag.
    - apply IH; [|lia].
      intros j Hj. rewrite <- Hn by lia.
      replace (j - q)%nat with (S (j - S q)) by lia. reflexivity. }
  destruct (Nat.le_gt_cases p (length tw)) as [Hp|Hp].
  - rewrite <- (G (skipn p tw) p).
    + now rewrite length_skipn.
    + intros j Hj. rewrite nth_skipn. f_equal. lia.
    + rewrite length_skipn. lia.
  - rewrite skipn_all2 by lia.
    replace (length tw - p)%nat with O by lia. reflexivity.
Qed.

(** ** Loops *)

Section Loops.
Context {X S A : Type}.
Variable body : X -> S -> flow S A.

Lemma for_each_app (xs ys : list X) (s : S) :
  for_each body (xs ++ ys) s
  = match for_each body xs s with
    | Next s' => for_each body ys s'
    | Exit r => Exit r
    end.
Proof.
  revert s. induction xs as [|x xs IH]; intro s; simpl; [reflexivity|].
  destruct (body x s); [apply IH|reflexivity].
Qed.

(** Iterations that all [continue] leave the local variables alone. *)
Lemma for_each_skip (xs : list X) (s : S) :
  Forall (fun x => body x s = Next s) xs -> for_each body xs s = Next s.
Proof.
  induction 1 as [|x xs Hx _ IH]; simpl; [reflexivity|].
  now rewrite Hx.
Qed.


End Loops.

(** ** The greedy counter *)

Lemma greedy_pairs_cons (gap a : Q) (rest : list Q) :
  greedy_pairs gap (a :: rest)
  = match first_gap gap a rest with
    | Some k => S (greedy_pairs gap (skipn k rest))
    | None => greedy_pairs gap rest
    end.
Proof.
  simpl.
  generalize (greedy_pairs gap rest) as fallback.
  induction rest as [|b l IH]; intro fallback; simpl; [reflexivity|].
  destruct (Qle_bool gap (b - a)); simpl; [reflexivity|].
  rewrite IH. destruct (first_gap gap a l); reflexivity.
Qed.

Lemma first_gap_lt (gap a : Q) (l : list Q) (k : nat) :
  first_gap gap a l = Some k -> (k < length l)%nat.
Proof.
  revert k. induction l as [|b l IH]; intros k; simpl; [discriminate|].
  destruct (Qle_bool gap (b - a)).
  - intros [= <-]. lia.
  - destruct (first_gap gap a l) as [k'|]; simpl; [|discriminate].
    intros [= <-]. specialize (IH k' eq_refl). lia.
Qed.

Lemma first_gap_spec (gap a : Q) (l : list Q) (k : nat) :
  first_gap gap a l = Some k ->
  gap <= nth k l 0 - a /\
  forall j, (j < k)%nat -> nth j l 0 - a < gap.
Proof.
  revert k. induction l as [|b l IH]; intros k; simpl; [discriminate|].
  destruct (Qle_bool gap (b - a)) eqn:E.
  - intros [= <-]. qbool. split; [assumption|]. intros j Hj; lia.
  - destruct (first_gap gap a l) as [k'|]; simpl; [|discriminate].
    intros [= <-]. destruct (IH k' eq_refl) as [H1 H2]. qbool.
    split; [assumption|].
    intros [|j] Hj; [assumption|]. apply H2. lia.
Qed.


(** [np.where] on a row of differences finds what [first_gap] finds. *)
Lemma where_ge_first_gap (gap a : Q) (l : list Q) (k0 : nat) :
  match where_ge (map (fun x => x - a) l) gap k0 with
  | k :: _ => option_map (Nat.add k0) (first_gap gap a l) = Some k
  | [] => first_gap gap a l = None
  end.
Proof.
  revert k0. induction l as [|b l IH]; intro k0; simpl; [reflexivity|].
  destruct (Qle_bool gap (b - a)); simpl.
  - f_equal. lia.
  - specialize (IH (S k0)).
    destruct (where_ge (map (fun x => x - a) l) gap (S k0)) as [|k ws].
    + now rewrite IH.
    + destruct (first_gap gap a l) as [k'|]; simpl in *; [|discriminate].
      injection IH as <-. f_equal. lia.
Qed.

(** ** The pair loop *)

Lemma skipn_nth_cons (l : list Q) (i : nat) :
  (i < length l)%nat -> skipn i l = nth i l 0 :: skipn (S i) l.
Proof.
  revert i. induction l as [|x l IH]; intros i Hi; simpl in Hi; [lia|].
  destruct i as [|i]; [reflexivity|].
  simpl. apply IH. lia.
Qed.

Section PairLoop.
Variable cfg : config.
Variable tw : list Q.
Hypothesis gap_pos : 0 < minPairGap cfg.

Let n := length tw.
Local Abbreviation gap := (minPairGap cfg).

(** One iteration that starts on the diagonal ([i = pairStart]): the
    assertion holds and the row search is [first_gap] on the later
    timestamps. *)
Lemma pair_body_diag (i : nat) (nf : Z) :
  (i < n)%nat ->
  pair_body cfg tw i (mkPairState i nf)
  = match first_gap gap (nth i tw 0) (skipn (S i) tw) with
    | Some k =>
        if (nPairs cfg <=? nf + 1)%Z then Exit (Return true)
        else Next (mkPairState (i + S k) (nf + 1))
    | None => Next (mkPairState (i + 1) nf)
    end.
Proof.
  intro Hi. unfold pair_body, dt_at, dt_row_from.
  cbn [pairStart nPairsFound].
  rewrite Nat.ltb_irrefl.
  assert (Hlt : (i <? length tw)%nat = true) by now apply Nat.ltb_lt.
  rewrite Hlt. cbn [andb].
  assert (Hz : Qeq_bool (dt tw i i) 0 = true).
  { apply Qeq_bool_iff. rewrite dt_diff by assumption. ring. }
  rewrite Hz. cbn [negb].
  rewrite dt_row_skipn by assumption.
  rewrite skipn_nth_cons by assumption. cbn [map where_ge].
  assert (Hd : Qle_bool (minPairGap cfg) (nth i tw 0 - nth i tw 0) = false).
  { apply Qle_bool_false. lra. }
  rewrite Hd.
  pose proof (where_ge_first_gap gap (nth i tw 0) (skipn (S i) tw) 1) as W.
  destruct (where_ge _ gap 1) as [|k ws].
  - now rewrite W.
  - destruct (first_gap gap (nth i tw 0) (skipn (S i) tw)) as [k'|];
      cbn [option_map] in W; [|discriminate].
    injection W as <-. reflexivity.
Qed.

(** Iterations below [pairStart] execute [continue]. *)
Lemma pair_body_below (st : pair_state) (i len : nat) :
  (i + len <= pairStart st)%nat ->
  Forall (fun j => pair_body cfg tw j st = Next st) (seq i len).
Proof.
  intro H. apply Forall_forall. intros j Hj.
  apply in_seq in Hj. unfold pair_body.
  replace (j <? pairStart st)%nat with true; [reflexivity|].
  symmetry. apply Nat.ltb_lt. lia.
Qed.

Lemma seq_split_at (i k : nat) :
  (i + S k <= n)%nat ->
  seq (S i) (n - S i) = seq (S i) k ++ seq (i + S k) (n - (i + S k)).
Proof.
  intro H.
  replace (n - S i)%nat with (k + (n - (i + S k)))%nat by lia.
  rewrite seq_app. do 2 f_equal. lia.
Qed.

(** The loop, started on the diagonal at [i] with [nf] pairs counted,
    returns [True] exactly when the greedy counter finds the missing pairs
    among the timestamps from [i] on; otherwise it runs to completion. *)
Lemma pair_loop_from (m i : nat) (nf : Z) :
  (n - i <= m)%nat -> (i <= n)%nat -> (nf < nPairs cfg)%Z ->
  let total := (nf + Z.of_nat (greedy_pairs gap (skipn i tw)))%Z in
  ((nPairs cfg <= total)%Z ->
   for_each (pair_body cfg tw) (seq i (n - i)) (mkPairState i nf)
   = Exit (Return true))
  /\ ((total < nPairs cfg)%Z ->
      exists st,
        for_each (pair_body cfg tw) (seq i (n - i)) (mkPairState i nf)
        = Next st).
Proof.
  revert i nf. induction m as [|m IH]; intros i nf Hm Hi Hnf total.
  - assert (i = n) by lia. subst i. subst total.
    rewrite Nat.sub_diag. unfold n. rewrite skipn_all. simpl.
    split; [lia|]. intros _. eexists; reflexivity.
  - destruct (Nat.eq_dec i n) as [->|Hne].
    { subst total. rewrite Nat.sub_diag. unfold n. rewrite skipn_all. simpl.
      split; [lia|]. intros _. eexists; reflexivity. }
    assert (Hlt : (i < n)%nat) by lia.
    subst total.
    replace (n - i)%nat with (S (n - S i)) by lia.
    cbn [seq for_each].
    rewrite pair_body_diag by assumption.
    rewrite (skipn_nth_cons tw i) by assumption.
    rewrite greedy_pairs_cons.
    destruct (first_gap gap (nth i tw 0) (skipn (S i) tw)) as [k|] eqn:E.
    + apply first_gap_lt in E. rewrite length_skipn in E. fold n in E.
      rewrite skipn_skipn.
      destruct (nPairs cfg <=? nf + 1)%Z eqn:En.
      * apply Z.leb_le in En. split; [reflexivity|]. lia.
      * apply Z.leb_gt in En.
        rewrite (seq_split_at i k) by lia.
        rewrite for_each_app.
        rewrite for_each_skip by (apply pair_body_below; simpl; lia).
        replace (k + S i)%nat with (i + S k)%nat by lia.
        destruct (IH (i + S k)%nat (nf + 1)%Z) as [H1 H2]; try lia.
        split; intro H; [apply H1|apply H2]; lia.
    + replace (i + 1)%nat with (S i) by lia.
      destruct (IH (S i) nf) as [H1 H2]; try lia.
      split; intro H; [apply H1|apply H2]; lia.
Qed.

End PairLoop.

(** ** Valid configurations *)

Lemma init_ok (L : Q) (mv np : Z) (g : Q) (col : string) :
  init L mv np g col = Return (mkConfig L mv np g col)
  <-> ((2 <= mv)%Z /\ (0 <= np)%Z /\ 0 <= g /\ (np <= mv + 1)%Z).
Proof.
  unfold init.
  destruct (2 <=? mv)%Z eqn:E1; simpl;
    [apply Z.leb_le in E1|apply Z.leb_gt in E1; split; [discriminate|lia]].
  destruct (0 <=? np)%Z eqn:E2; simpl;
    [apply Z.leb_le in E2|apply Z.leb_gt in E2; split; [discriminate|lia]].
  destruct (Qle_bool 0 g) eqn:E3; simpl; qbool;
    [|split; [discriminate|intros (_ & _ & H & _); lra]].
  destruct (np <=? mv + 1)%Z eqn:E4; simpl;
    [apply Z.leb_le in E4|apply Z.leb_gt in E4; split; [discriminate|lia]].
  split; auto.
Qed.

Lemma init_raises (L : Q) (mv np : Z) (g : Q) (col : string) :
  init L mv np g col = Raise AssertionError
  \/ init L mv np g col = Return (mkConfig L mv np g col).
Proof.
  unfold init.
  repeat match goal with
         | |- context [if ?b then _ else _] => destruct b
         end; auto.
Qed.

Lemma valid_iff (cfg : config) :
  valid cfg
  <-> ((2 <= minVisits cfg)%Z /\ (0 <= nPairs cfg)%Z /\ 0 <= minPairGap cfg
       /\ (nPairs cfg <= minVisits cfg + 1)%Z).
Proof.
  unfold valid. destruct cfg as [L mv np g col]; simpl. apply init_ok.
Qed.

(** ** One anchor *)

(** For a valid configuration the body of the anchor loop always returns, and
    returns what the specification asks of the window of its anchor. *)
Lemma anchor_body_passes (cfg : config) (t : list Q) (ti0 : Q) :
  valid cfg ->
  anchor_body cfg t ti0 tt = Exit (Return (window_passes cfg t ti0)).
Proof.
  intro Hv. apply valid_iff in Hv. destruct Hv as (Hmv & Hnp & Hg & _).
  unfold anchor_body, window_passes, pairs_enabled. cbv zeta.
  rewrite np_sum_mask, select_mask.
  destruct (minVisits cfg <=? _)%Z; [|reflexivity]. cbn [andb].
  destruct (nPairs cfg =? 0)%Z eqn:En.
  { apply Z.eqb_eq in En. rewrite En. reflexivity. }
  apply Z.eqb_neq in En.
  destruct (Qeq_bool (minPairGap cfg) 0) eqn:Eg; cbn [orb].
  { qbool.
    replace (Qle_bool (minPairGap cfg) 0) with true
      by (symmetry; apply Qle_bool_iff; lra).
    now rewrite andb_false_r. }
  qbool.
  assert (Hpos : 0 < minPairGap cfg) by lra.
  replace (0 <? nPairs cfg)%Z with true by (symmetry; apply Z.ltb_lt; lia).
  replace (Qle_bool (minPairGap cfg) 0) with false
    by (symmetry; apply Qle_bool_false; assumption).
  cbn [andb negb].
  set (W := window t ti0 (intervalLength cfg)).
  unfold pair_loop.
  destruct (pair_loop_from cfg W Hpos (length W) 0 0) as [H1 H2]; try lia.
  rewrite Nat.sub_0_r in H1, H2. cbn [skipn] in H1, H2.
  destruct (nPairs cfg <=? Z.of_nat (greedy_pairs (minPairGap cfg) W))%Z eqn:E.
  - apply Z.leb_le in E. rewrite H1 by lia. reflexivity.
  - apply Z.leb_gt in E. destruct H2 as [st ->]; [lia|]. reflexivity.
Qed.

(** [evaluate] looks at the first element of the column only. *)
Lemma evaluate_cons (cfg : config) (x : Q) (t : list Q) :
  valid cfg ->
  evaluate cfg (x :: t) = Return (window_passes cfg (x :: t) x).
Proof.
  intro Hv. unfold evaluate. cbn [for_each].
  now rewrite anchor_body_passes.
Qed.

(** The window of an anchor does not depend on how the anchor is written as
    a fraction. *)
Lemma window_passes_Qeq (cfg : config) (t : list Q) (a b : Q) :
  a == b -> window_passes cfg t a = window_passes cfg t b.
Proof.
  intro Hab. unfold window_passes, window.
  assert (E : forall x, in_window a (intervalLength cfg) x
                        = in_window b (intervalLength cfg) x).
  { intro x. unfold in_window. now rewrite Hab. }
  now rewrite (filter_ext _ _ E).
Qed.

(** A minimum of the input is equal to the head of the sorted column. *)
Lemma minimum_is_head (ds : list visit) (t0 : Q) :
  In t0 (column ds) -> Forall (Qle t0) (column ds) ->
  exists x t, column (sort ds) = x :: t /\ x == t0
              /\ StronglySorted Qle (x :: t).
Proof.
  intros Hin Hmin.
  pose proof (column_sorted _ (sort_sorted ds)) as Hs.
  assert (Hp : Permutation (column ds) (column (sort ds)))
    by (apply Permutation_map, sort_perm).
  destruct (column (sort ds)) as [|x t] eqn:E.
  - apply Permutation_sym, Permutation_nil in Hp.
    rewrite Hp in Hin. destruct Hin.
  - exists x, t. repeat split; [|exact Hs].
    apply Qle_antisym.
    + inversion Hs as [|? ? _ Hall]; subst.
      apply (Permutation_in _ Hp) in Hin. destruct Hin as [->|Hin].
      * apply Qle_refl.
      * rewrite Forall_forall in Hall. now apply Hall.
    + rewrite Forall_forall in Hmin. apply Hmin.
      apply (Permutation_in _ (Permutation_sym Hp)). now left.
Qed.

(** [run] returns the result of the window anchored at a minimum. *)
Lemma run_minimum (cfg : config) (ds : list visit) (t0 : Q) :
  valid cfg ->
  In t0 (column ds) -> Forall (Qle t0) (column ds) ->
  snd (run cfg ds) = Return (window_passes cfg (column (sort ds)) t0).
Proof.
  intros Hv Hin Hmin.
  destruct (minimum_is_head ds t0 Hin Hmin) as (x & t & E & Hx & _).
  unfold run; cbn [snd]. rewrite E, evaluate_cons by assumption.
  f_equal. now apply window_passes_Qeq.
Qed.

(** A non-empty batch has a minimum: the head of its sorted column. *)
Lemma minimum_exists (ds : list visit) :
  ds <> [] ->
  exists t0, In t0 (column ds) /\ Forall (Qle t0) (column ds).
Proof.
  intro Hne.
  pose proof (column_sorted _ (sort_sorted ds)) as Hs.
  assert (Hp : Permutation (column (sort ds)) (column ds))
    by (apply Permutation_sym, Permutation_map, sort_perm).
  pose proof (sort_nonempty ds Hne) as Hne'.
  destruct (sort ds) as [|v l]; [congruence|]. cbn [column map] in *.
  exists (time v). split.
  - apply (Permutation_in _ Hp). now left.
  - apply (Permutation_Forall Hp).
    inversion Hs; subst. constructor; [apply Qle_refl|assumption].
Qed.

(** ** Windows of a sorted column *)

Lemma sorted_filter (f : Q -> bool) (l : list Q) :
  StronglySorted Qle l -> StronglySorted Qle (filter f l).
Proof.
  induction 1 as [|x l Hs IH Hall]; simpl; [constructor|].
  destruct (f x); [|exact IH].
  constructor; [exact IH|].
  apply Forall_forall. intros y Hy. apply filter_In in Hy.
  rewrite Forall_forall in Hall. now apply Hall.
Qed.


Lemma filter_none (f : Q -> bool) (l : list Q) :
  (forall y, In y l -> f y = false) -> filter f l = [].
Proof.
  induction l as [|x l IH]; intro H; simpl; [reflexivity|].
  rewrite (H x) by now left. apply IH. intros y Hy. apply H. now right.
Qed.


(** ** Monotonicity of the greedy counter on sorted windows *)




(** ** The pairs the greedy counter counts *)

Lemma gap_pair_shift (gap : Q) (W : list Q) (d : nat) (ps : list (nat * nat)) :
  (d <= length W)%nat ->
  Forall (gap_pair gap (skipn d W)) ps ->
  Forall (gap_pair gap W) (map (shift d) ps).
Proof.
  intros Hd H. apply Forall_map. eapply Forall_impl; [|exact H].
  intros [a b]. unfold gap_pair, shift; simpl.
  rewrite length_skipn, !nth_skipn. intros [H1 H2]. split; [lia|exact H2].
Qed.

Lemma consecutive_shift (d : nat) (ps : list (nat * nat)) :
  consecutive_pairs ps -> consecutive_pairs (map (shift d) ps).
Proof.
  induction ps as [|p ps IH]; [auto|].
  destruct ps as [|q ps]; [simpl; auto|].
  intros [H1 H2]. cbn [map]. cbn [map] in IH. split; [|now apply IH].
  unfold shift; simpl. lia.
Qed.

Lemma consecutive_cons (p : nat * nat) (d : nat) (ps : list (nat * nat)) :
  (snd p <= d)%nat -> consecutive_pairs ps ->
  consecutive_pairs (p :: map (shift d) ps).
Proof.
  intros Hp H. destruct ps as [|q ps]; [simpl; auto|].
  cbn [map]. split.
  - unfold shift; simpl. lia.
  - apply (consecutive_shift d (q :: ps) H).
Qed.

(** The greedy counter counts consecutive pairs. *)
Lemma greedy_pairs_consecutive (gap : Q) (m : nat) (W : list Q) :
  (length W <= m)%nat ->
  exists ps, length ps = greedy_pairs gap W
             /\ Forall (gap_pair gap W) ps /\ consecutive_pairs ps.
Proof.
  revert W. induction m as [|m IH]; intros W Hm.
  - destruct W; [|simpl in Hm; lia]. exists []. simpl. auto.
  - destruct W as [|a rest]; [exists []; simpl; auto|].
    rewrite greedy_pairs_cons. simpl in Hm.
    destruct (first_gap gap a rest) as [k|] eqn:E.
    + pose proof (first_gap_lt _ _ _ _ E) as Hk.
      destruct (first_gap_spec _ _ _ _ E) as [Hgap _].
      destruct (IH (skipn k rest)) as (ps & Hlen & Hall & Hc).
      { rewrite length_skipn. lia. }
      exists ((O, S k) :: map (shift (S k)) ps).
      split; [simpl; now rewrite length_map, Hlen|]. split.
      * constructor.
        -- unfold gap_pair; simpl. split; [lia|exact Hgap].
        -- apply gap_pair_shift; [simpl; lia|exact Hall].
      * apply consecutive_cons; [simpl; lia|exact Hc].
    + destruct (IH rest) as (ps & Hlen & Hall & Hc); [lia|].
      exists (map (shift 1) ps).
      split; [now rewrite length_map|]. split.
      * apply gap_pair_shift; [simpl; lia|exact Hall].
      * now apply consecutive_shift.
Qed.


(** ** Monotonicity of one window *)


Lemma window_passes_more_visits (L : Q) (mv1 mv2 np : Z) (g : Q)
      (col : string) (t : list Q) (t0 : Q) :
  (mv1 <= mv2)%Z ->
  window_passes (mkConfig L mv1 np g col) t t0 = false ->
  window_passes (mkConfig L mv2 np g col) t t0 = false.
Proof.
  intros Hmv. unfold window_passes, pairs_enabled; cbn.
  intro H. apply andb_false_iff in H. apply andb_false_iff.
  destruct H as [H|H]; [left|right; exact H].
  apply Z.leb_gt in H. apply Z.leb_gt. lia.
Qed.

(** * The claims *)

(** C1 (fails on the code). The claim: [run] returns true iff some timestamp
    anchors a window that passes.  On the sorted input 0, 100, 101, 102 with
    [intervalLength = 45], [minVisits = 3] and no pair check, the window
    anchored at 100 holds three visits, so an anchor passes, and [run]
    returns false: it stops at the window of the first anchor. *)
Theorem run_misses_later_anchor :
  valid m1
  /\ any_anchor_passes m1 (column (sort (of_times [0; 100; 101; 102]))) = true
  /\ window_passes m1 (column (sort (of_times [0; 100; 101; 102]))) 100 = true
  /\ snd (run m1 (of_times [0; 100; 101; 102])) = Return false.
Proof.
  vm_compute. repeat split.
Qed.






(** C4. The table of [test()]: with [m1 = (45, 3, nPairs=0, minPairGap=0)]
    and [m2 = (45, 3, nPairs=2, minPairGap=2)], [run] returns on the six
    listed inputs the tabulated results. *)
Theorem test_table :
  map (fun ts => (snd (run m1 (of_times ts)), snd (run m2 (of_times ts))))
      [ [0; 1; 2; 5; 40];
        [0; 2; 45];
        [0; 1; 43; 45];
        [0; 1; 2; 3; 4; 5; 45];
        [0; 1; 45];
        [0; 44; 45] ]
  = [ (Return true, Return true);
      (Return true, Return true);
      (Return true, Return true);
      (Return true, Return true);
      (Return true, Return false);
      (Return true, Return false) ].
Proof.
  vm_compute. reflexivity.
Qed.

(** C5 (fails on the code). The claim: on an empty batch [run] raises nothing
    and returns false.  The anchor loop has no iteration, control reaches
    [return result], and the name [result] is not defined: [run] raises
    NameError, for every configuration. *)
Theorem run_empty_raises (cfg : config) :
  run cfg [] = ([], Raise NameError).
Proof.
  reflexivity.
Qed.

(** C6. Construction raises exactly when one of the four invariants
    ([minVisits >= 2], [nPairs >= 0], [minPairGap >= 0],
    [nPairs <= minVisits + 1]) is violated and otherwise stores the given
    fields; in particular it raises for [minVisits = 1], for [nPairs = -1],
    for [minPairGap = -1] and for [nPairs > minVisits + 1]. *)
Theorem init_checks_invariants :
  (forall L mv np g col,
      init L mv np g col = Raise AssertionError
      <-> ~ ((2 <= mv)%Z /\ (0 <= np)%Z /\ 0 <= g /\ (np <= mv + 1)%Z))
  /\ (forall L mv np g col,
         init L mv np g col = Return (mkConfig L mv np g col)
         <-> ((2 <= mv)%Z /\ (0 <= np)%Z /\ 0 <= g /\ (np <= mv + 1)%Z))
  /\ (forall L np g col, init L 1 np g col = Raise AssertionError)
  /\ (forall L mv g col, init L mv (-1) g col = Raise AssertionError)
  /\ (forall L mv np col, init L mv np (-1) col = Raise AssertionError)
  /\ (forall L mv np g col,
         (mv + 1 < np)%Z ->
         init L mv np g col = Raise AssertionError).
Proof.
  assert (R : forall L mv np g col,
             init L mv np g col = Raise AssertionError
             <-> ~ ((2 <= mv)%Z /\ (0 <= np)%Z /\ 0 <= g /\ (np <= mv + 1)%Z)).
  { intros L mv np g col. rewrite <- (init_ok L mv np g col).
    destruct (init_raises L mv np g col) as [E|E]; rewrite E.
    - split; [discriminate|reflexivity].
    - split; [discriminate|]. intro H. now destruct H. }
  split; [exact R|]. split; [exact init_ok|].
  split; [intros; apply R; intros (H & _); lia|].
  split; [intros; apply R; intros (_ & H & _); lia|].
  split.
  - intros. apply R. intros (_ & _ & H & _).
    revert H. apply Qlt_not_le. reflexivity.
  - intros L mv np g col H. apply R. intros (_ & _ & _ & Hle). lia.
Qed.

(** The construction of [m2], and one rejected construction for each
    invariant. *)
Lemma init_checks_invariants_witness :
  init 45 3 2 2 "expMJD" = Return m2
  /\ init 45 1 0 0 "expMJD" = Raise AssertionError
  /\ init 45 3 (-1) 0 "expMJD" = Raise AssertionError
  /\ init 45 3 0 (-1) "expMJD" = Raise AssertionError
  /\ init 45 3 5 2 "expMJD" = Raise AssertionError.
Proof.
  destruct init_checks_invariants as (_ & Hok & H1 & H2 & H3 & H4).
  split; [apply Hok; repeat split; try lia; discriminate|].
  split; [apply H1|]. split; [apply H2|]. split; [apply H3|].
  apply H4. lia.
Defined.



(** C8. Monotonicity in [minVisits]: for two valid configurations that
    differ only in [minVisits], if [run] returns false with the smaller one,
    it returns false with the larger one. *)
Theorem run_monotone_minVisits (L : Q) (mv1 mv2 np : Z) (g : Q)
        (col : string) (ds : list visit) :
  valid (mkConfig L mv1 np g col) -> valid (mkConfig L mv2 np g col) ->
  (mv1 <= mv2)%Z ->
  snd (run (mkConfig L mv1 np g col) ds) = Return false ->
  snd (run (mkConfig L mv2 np g col) ds) = Return false.
Proof.
  intros Hv1 Hv2 Hmv Hrun.
  destruct ds as [|v ds]; [discriminate|].
  destruct (minimum_exists (v :: ds)) as (t0 & Hin & Hmin); [discriminate|].
  rewrite (run_minimum _ _ t0 Hv1 Hin Hmin) in Hrun.
  rewrite (run_minimum _ _ t0 Hv2 Hin Hmin).
  injection Hrun as Hrun. f_equal.
  now apply (window_passes_more_visits L mv1 mv2).
Qed.

(** From [minVisits = 3] to 4 on the batch 0, 1, 45. *)
Lemma run_monotone_minVisits_witness :
  snd (run (mkConfig 45 3 2 2 "expMJD") (of_times [0; 1; 45])) = Return false
  /\ snd (run (mkConfig 45 4 2 2 "expMJD") (of_times [0; 1; 45]))
     = Return false.
Proof.
  split; [reflexivity|].
  apply (run_monotone_minVisits 45 3 4 2 2 "expMJD").
  - reflexivity.
  - reflexivity.
  - discriminate.
  - reflexivity.
Defined.



(** C10. The side effect on the argument: after [run], whatever it returns
    or raises, the caller's array is the array it passed sorted in place: a
    permutation of the records passed (none added, removed or changed), in
    ascending order of the time column. *)
Theorem run_sorts_in_place (cfg : config) (ds : list visit) :
  fst (run cfg ds) = sort ds
  /\ Permutation ds (fst (run cfg ds))
  /\ StronglySorted time_le (fst (run cfg ds)).
Proof.
  cbn [run fst]. split; [reflexivity|]. split.
  - apply sort_perm.
  - apply sort_sorted.
Qed.

(** * Further properties of [run] *)

(** ** Counting in a window does not depend on the order *)

Lemma filter_length_perm (f : Q -> bool) (l1 l2 : list Q) :
  Permutation l1 l2 -> length (filter f l1) = length (filter f l2).
Proof.
  induction 1 as [|x l1 l2 _ IH|x y l|l1 l2 l3 _ IH1 _ IH2]; simpl.
  - reflexivity.
  - destruct (f x); simpl; now rewrite IH.
  - destruct (f x), (f y); reflexivity.
  - now rewrite IH1.
Qed.

Lemma column_sort_perm (ds : list visit) :
  Permutation (column ds) (column (sort ds)).
Proof.
  apply Permutation_map, sort_perm.
Qed.

Lemma window_length_sort (ds : list visit) (t0 L : Q) :
  length (window (column (sort ds)) t0 L) = length (window (column ds) t0 L).
Proof.
  unfold window. symmetry. apply filter_length_perm, column_sort_perm.
Qed.




(** A non-empty batch with fewer than [minVisits] records gives false, with
    or without the pair check. *)
Theorem run_too_few_visits (cfg : config) (ds : list visit) :
  valid cfg -> ds <> [] ->
  (Z.of_nat (length ds) < minVisits cfg)%Z ->
  snd (run cfg ds) = Return false.
Proof.
  intros Hv Hne Hlen.
  destruct (minimum_exists ds Hne) as (t0 & Hin & Hmin).
  rewrite (run_minimum cfg ds t0 Hv Hin Hmin). f_equal.
  unfold window_passes. apply andb_false_intro1. apply Z.leb_gt.
  rewrite window_length_sort. unfold window.
  pose proof (filter_length_le (in_window t0 (intervalLength cfg))
                               (column ds)) as Hle.
  unfold column in Hle at 2. rewrite length_map in Hle. lia.
Qed.

(** Two visits against [minVisits = 3]. *)
Lemma run_too_few_visits_witness :
  snd (run m2 (of_times [0; 30])) = Return false.
Proof.
  apply (run_too_few_visits m2 (of_times [0; 30])).
  - reflexivity.
  - discriminate.
  - reflexivity.
Defined.

(** ** The greedy counter misses no pair on a sorted window *)

Lemma sorted_nth_le (l : list Q) (i j : nat) :
  StronglySorted Qle l -> (i <= j)%nat -> (j < length l)%nat ->
  nth i l 0 <= nth j l 0.
Proof.
  intro Hs. revert i j.
  induction Hs as [|x l Hs IH Hall]; intros i j Hij Hj; simpl in Hj; [lia|].
  destruct j as [|j].
  - replace i with O by lia. apply Qle_refl.
  - destruct i as [|i]; simpl.
    + rewrite Forall_forall in Hall. apply Hall, nth_In. lia.
    + apply IH; lia.
Qed.

Lemma first_gap_exists (gap a : Q) (l : list Q) (j : nat) :
  (j < length l)%nat -> gap <= nth j l 0 - a ->
  exists k, first_gap gap a l = Some k /\ (k <= j)%nat.
Proof.
  revert j. induction l as [|b l IH]; intros j Hj Hg; simpl in Hj; [lia|].
  simpl. destruct (Qle_bool gap (b - a)) eqn:E.
  - exists O. split; [reflexivity|lia].
  - destruct j as [|j]; simpl in Hg.
    + qbool. lra.
    + destruct (IH j) as (k & -> & Hk); [lia|exact Hg|].
      exists (S k). split; [reflexivity|lia].
Qed.

Lemma consecutive_from (p : nat * nat) (ps : list (nat * nat)) :
  consecutive_pairs (p :: ps) ->
  Forall (fun q => (fst q < snd q)%nat) ps ->
  Forall (fun q => (snd p <= fst q)%nat) ps.
Proof.
  revert p. induction ps as [|q ps IH]; intros p Hc Hlt; constructor.
  - destruct Hc as [H _]. exact H.
  - destruct Hc as [H Hc]. inversion Hlt as [|? ? Hq Hlt']; subst.
    eapply Forall_impl; [|apply (IH q Hc Hlt')].
    intros r Hr. simpl in Hr. lia.
Qed.

Lemma consecutive_tail (p : nat * nat) (ps : list (nat * nat)) :
  consecutive_pairs (p :: ps) -> consecutive_pairs ps.
Proof.
  destruct ps as [|q ps]; [auto|]. intros [_ H]. exact H.
Qed.

Section GreedyComplete.
Variable gap : Q.
Variable W : list Q.
Hypothesis W_sorted : StronglySorted Qle W.

(** Consecutive pairs that start at index [d] or later are all counted by the
    greedy counter started at [d]. *)
Lemma greedy_pairs_complete_from (m d : nat) (ps : list (nat * nat)) :
  (length W - d <= m)%nat ->
  Forall (gap_pair gap W) ps -> consecutive_pairs ps ->
  Forall (fun p => (d <= fst p)%nat) ps ->
  (length ps <= greedy_pairs gap (skipn d W))%nat.
Proof.
  revert d ps. induction m as [|m IH]; intros d ps Hm Hall Hc Hd.
  - destruct ps as [|[i j] ps]; [simpl; lia|].
    inversion Hall as [|? ? [Hij _] _]; subst.
    inversion Hd; subst. simpl in *. lia.
  - destruct ps as [|[i j] ps]; [simpl; lia|].
    inversion Hall as [|? ? [Hij Hg] Hall']; subst.
    inversion Hd as [|? ? Hdi _]; subst. simpl in Hij, Hg, Hdi.
    rewrite (skipn_nth_cons W d) by lia.
    rewrite greedy_pairs_cons.
    destruct (first_gap_exists gap (nth d W 0) (skipn (S d) W) (j - S d))
      as (k & Hk & Hkj).
    { rewrite length_skipn. lia. }
    { rewrite nth_skipn. replace (S d + (j - S d))%nat with j by lia.
      pose proof (sorted_nth_le W d i W_sorted Hdi ltac:(lia)). lra. }
    rewrite Hk, skipn_skipn. simpl. apply le_n_S.
    apply IH.
    + lia.
    + exact Hall'.
    + now apply consecutive_tail in Hc.
    + eapply Forall_impl; [|apply (consecutive_from _ _ Hc)].
      * intros q Hq. simpl in Hq. lia.
      * eapply Forall_impl; [|exact Hall']. intros q [Hq _]. lia.
Qed.

Lemma greedy_pairs_complete (ps : list (nat * nat)) :
  Forall (gap_pair gap W) ps -> consecutive_pairs ps ->
  (length ps <= greedy_pairs gap W)%nat.
Proof.
  intros Hall Hc.
  apply (greedy_pairs_complete_from (length W) 0 ps); auto.
  - lia.
  - apply Forall_forall. intros; lia.
Qed.

End GreedyComplete.

(** ** What a true result means when the pair check is on *)

Lemma window_sorted (ds : list visit) (t0 L : Q) :
  StronglySorted Qle (window (column (sort ds)) t0 L).
Proof.
  apply sorted_filter, column_sorted, sort_sorted.
Qed.







(** ** Monotonicity in the pair parameters *)

(** Asking for more pairs never turns a false result into true. *)
Theorem run_monotone_nPairs (L : Q) (mv np1 np2 : Z) (g : Q) (col : string)
        (ds : list visit) :
  valid (mkConfig L mv np1 g col) -> valid (mkConfig L mv np2 g col) ->
  (np1 <= np2)%Z ->
  snd (run (mkConfig L mv np1 g col) ds) = Return false ->
  snd (run (mkConfig L mv np2 g col) ds) = Return false.
Proof.
  intros Hv1 Hv2 Hnp Hrun.
  assert (Hne : ds <> []) by (intros ->; discriminate).
  destruct (minimum_exists ds Hne) as (t0 & Hin & Hmin).
  rewrite (run_minimum _ _ t0 Hv1 Hin Hmin) in Hrun.
  rewrite (run_minimum _ _ t0 Hv2 Hin Hmin).
  injection Hrun as Hrun. f_equal. revert Hrun.
  apply valid_iff in Hv1. destruct Hv1 as (_ & Hnp1 & _). simpl in Hnp1.
  unfold window_passes, pairs_enabled.
  cbn [intervalLength minVisits nPairs minPairGap].
  destruct (mv <=? _)%Z; [|reflexivity]. cbn [andb].
  destruct (Qle_bool g 0); cbn [negb].
  - rewrite !andb_false_r. discriminate.
  - rewrite !andb_true_r.
    destruct (0 <? np1)%Z eqn:E1; [|discriminate].
    apply Z.ltb_lt in E1.
    replace (0 <? np2)%Z with true by (symmetry; apply Z.ltb_lt; lia).
    intro H. apply Z.leb_gt in H. apply Z.leb_gt. lia.
Qed.

(** From one pair to two on the batch 0, 44, 45 is already false at one. *)
Lemma run_monotone_nPairs_witness :
  snd (run (mkConfig 45 3 2 2 "expMJD") (of_times [0; 44; 45])) = Return false
  /\ snd (run (mkConfig 45 3 3 2 "expMJD") (of_times [0; 44; 45]))
     = Return false.
Proof.
  split; [reflexivity|].
  apply (run_monotone_nPairs 45 3 2 3 2 "expMJD").
  - reflexivity.
  - reflexivity.
  - discriminate.
  - reflexivity.
Defined.

(** Asking for a larger gap never turns a false result into true. *)
Theorem run_monotone_minPairGap (L : Q) (mv np : Z) (g1 g2 : Q)
        (col : string) (ds : list visit) :
  valid (mkConfig L mv np g1 col) -> valid (mkConfig L mv np g2 col) ->
  g1 <= g2 ->
  snd (run (mkConfig L mv np g1 col) ds) = Return false ->
  snd (run (mkConfig L mv np g2 col) ds) = Return false.
Proof.
  intros Hv1 Hv2 Hg Hrun.
  assert (Hne : ds <> []) by (intros ->; discriminate).
  destruct (minimum_exists ds Hne) as (t0 & Hin & Hmin).
  rewrite (run_minimum _ _ t0 Hv1 Hin Hmin) in Hrun.
  rewrite (run_minimum _ _ t0 Hv2 Hin Hmin).
  injection Hrun as Hrun. f_equal. revert Hrun.
  unfold window_passes, pairs_enabled.
  cbn [intervalLength minVisits nPairs minPairGap].
  set (W := window (column (sort ds)) t0 L).
  destruct (mv <=? _)%Z; [|reflexivity]. cbn [andb].
  destruct (0 <? np)%Z; cbn [andb]; [|discriminate].
  destruct (Qle_bool g1 0) eqn:E1; cbn [negb]; [discriminate|].
  qbool.
  replace (Qle_bool g2 0) with false
    by (symmetry; apply Qle_bool_false; lra).
  cbn [negb]. intro H. apply Z.leb_gt in H. apply Z.leb_gt.
  destruct (greedy_pairs_consecutive g2 _ W (le_n _))
    as (ps & Hlen & Hall & Hc).
  assert (Hall1 : Forall (gap_pair g1 W) ps).
  { eapply Forall_impl; [|exact Hall].
    intros p [Hp Hgap]. split; [exact Hp|lra]. }
  pose proof (greedy_pairs_complete g1 W (window_sorted ds t0 L) ps Hall1 Hc).
  lia.
Qed.

(** From a gap of 2 to a gap of 3 on the batch 0, 1, 45. *)
Lemma run_monotone_minPairGap_witness :
  snd (run (mkConfig 45 3 2 2 "expMJD") (of_times [0; 1; 45])) = Return false
  /\ snd (run (mkConfig 45 3 2 3 "expMJD") (of_times [0; 1; 45]))
     = Return false.
Proof.
  split; [reflexivity|].
  apply (run_monotone_minPairGap 45 3 2 2 3 "expMJD").
  - reflexivity.
  - reflexivity.
  - discriminate.
  - reflexivity.
Defined.

(** ** The result depends on the timestamps only *)

(** In a sorted list the timestamps below [v] are a prefix. *)
Lemma sorted_nth_lt (l : list Q) (i : nat) (v : Q) :
  StronglySorted Qle l -> (i < length l)%nat ->
  nth i l 0 < v
  <-> (i < length (filter (fun x => negb (Qle_bool v x)) l))%nat.
Proof.
  intro Hs. revert i. induction Hs as [|x l Hs IH Hall]; intros i Hi.
  - simpl in Hi. lia.
  - cbn [filter]. destruct (Qle_bool v x) eqn:E; cbn [negb]; qbool.
    + rewrite filter_none.
      * cbn [length]. split; [|lia]. intro H. exfalso.
        assert (Hx : x <= nth i (x :: l) 0); [|lra].
        destruct i as [|i]; [apply Qle_refl|].
        rewrite Forall_forall in Hall. cbn [nth].
        apply Hall, nth_In. simpl in Hi. lia.
      * intros y Hy. rewrite Forall_forall in Hall. apply Hall in Hy.
        apply negb_false_iff, Qle_bool_iff. lra.
    + destruct i as [|i]; simpl.
      * split; [lia|auto].
      * simpl in Hi. rewrite IH by lia. lia.
Qed.

(** Two sorted arrangements of the same timestamps agree position by
    position. *)
Lemma sorted_perm_nth (l1 l2 : list Q) (i : nat) :
  StronglySorted Qle l1 -> StronglySorted Qle l2 -> Permutation l1 l2 ->
  (i < length l1)%nat -> nth i l1 0 == nth i l2 0.
Proof.
  intros H1 H2 Hp Hi.
  assert (Hi2 : (i < length l2)%nat)
    by now rewrite <- (Permutation_length Hp).
  assert (C : forall v,
             length (filter (fun x => negb (Qle_bool v x)) l1)
             = length (filter (fun x => negb (Qle_bool v x)) l2))
    by (intro v; now apply filter_length_perm).
  apply Qle_antisym; apply Qnot_lt_le; intro Hlt.
  - apply (sorted_nth_lt l2 i _ H2 Hi2) in Hlt. rewrite <- C in Hlt.
    apply (sorted_nth_lt l1 i _ H1 Hi) in Hlt. lra.
  - apply (sorted_nth_lt l1 i _ H1 Hi) in Hlt. rewrite C in Hlt.
    apply (sorted_nth_lt l2 i _ H2 Hi2) in Hlt. lra.
Qed.

Lemma Forall2_of_nth (l1 l2 : list Q) :
  length l1 = length l2 ->
  (forall i, (i < length l1)%nat -> nth i l1 0 == nth i l2 0) ->
  Forall2 Qeq l1 l2.
Proof.
  revert l2. induction l1 as [|x l1 IH]; intros [|y l2] Hlen Hn;
    simpl in Hlen; try discriminate; constructor.
  - apply (Hn O). simpl. lia.
  - apply IH; [lia|]. intros i Hi. apply (Hn (S i)). simpl. lia.
Qed.

Lemma sorted_perm_Qeq (l1 l2 : list Q) :
  StronglySorted Qle l1 -> StronglySorted Qle l2 -> Permutation l1 l2 ->
  Forall2 Qeq l1 l2.
Proof.
  intros H1 H2 Hp. apply Forall2_of_nth.
  - now apply Permutation_length.
  - intros i Hi. now apply sorted_perm_nth.
Qed.

Lemma in_window_Qeq (t0 L x y : Q) :
  x == y -> in_window t0 L x = in_window t0 L y.
Proof.
  intro H. unfold in_window. now rewrite H.
Qed.

Lemma window_Qeq (t1 t2 : list Q) (t0 L : Q) :
  Forall2 Qeq t1 t2 -> Forall2 Qeq (window t1 t0 L) (window t2 t0 L).
Proof.
  unfold window. induction 1 as [|x y l1 l2 Hxy _ IH]; simpl; [constructor|].
  rewrite (in_window_Qeq t0 L x y Hxy).
  destruct (in_window t0 L y); [constructor|]; assumption.
Qed.

Lemma first_gap_Qeq (gap a a' : Q) (l l' : list Q) :
  a == a' -> Forall2 Qeq l l' -> first_gap gap a l = first_gap gap a' l'.
Proof.
  intro Ha. induction 1 as [|b b' l l' Hb _ IH]; simpl; [reflexivity|].
  replace (Qle_bool gap (b' - a')) with (Qle_bool gap (b - a))
    by (apply Qleb_comp; [reflexivity|now rewrite Ha, Hb]).
  now rewrite IH.
Qed.

Lemma Forall2_Qeq_skipn (k : nat) (l l' : list Q) :
  Forall2 Qeq l l' -> Forall2 Qeq (skipn k l) (skipn k l').
Proof.
  intro H. revert k. induction H as [|b b' l l' Hb H IH]; intro k.
  - rewrite !skipn_nil. constructor.
  - destruct k as [|k]; simpl; [now constructor|apply IH].
Qed.

Lemma greedy_pairs_Qeq (gap : Q) (m : nat) (W W' : list Q) :
  (length W <= m)%nat -> Forall2 Qeq W W' ->
  greedy_pairs gap W = greedy_pairs gap W'.
Proof.
  revert W W'. induction m as [|m IH]; intros W W' Hm H.
  - destruct H; [reflexivity|simpl in Hm; lia].
  - destruct H as [|a a' l l' Ha H]; [reflexivity|].
    rewrite !greedy_pairs_cons, <- (first_gap_Qeq gap a a' l l' Ha H).
    simpl in Hm.
    destruct (first_gap gap a l) as [k|].
    + f_equal. apply IH; [rewrite length_skipn; lia|].
      now apply Forall2_Qeq_skipn.
    + apply IH; [lia|assumption].
Qed.

Lemma window_passes_Qeq_column (cfg : config) (t1 t2 : list Q) (t0 : Q) :
  Forall2 Qeq t1 t2 -> window_passes cfg t1 t0 = window_passes cfg t2 t0.
Proof.
  intro H. unfold window_passes.
  pose proof (window_Qeq t1 t2 t0 (intervalLength cfg) H) as HW.
  rewrite (Forall2_length HW).
  now rewrite (greedy_pairs_Qeq (minPairGap cfg) _ _ _ (le_n _) HW).
Qed.

(** The result of [run] depends on the batch through the timestamps it
    holds only: two batches whose time columns hold the same timestamps, in
    whatever order and with whatever other columns, give the same result. *)
Theorem run_depends_on_timestamps (cfg : config) (ds ds' : list visit) :
  valid cfg -> Permutation (column ds) (column ds') ->
  snd (run cfg ds) = snd (run cfg ds').
Proof.
  intros Hv Hp.
  destruct ds as [|v ds0].
  { apply Permutation_nil in Hp. apply map_eq_nil in Hp. now subst ds'. }
  set (ds := v :: ds0) in *.
  destruct (minimum_exists ds) as (t0 & Hin & Hmin); [discriminate|].
  rewrite (run_minimum cfg ds t0 Hv Hin Hmin).
  rewrite (run_minimum cfg ds' t0 Hv).
  - f_equal. apply window_passes_Qeq_column.
    apply sorted_perm_Qeq; try (apply column_sorted, sort_sorted).
    apply perm_trans with (column ds);
      [apply Permutation_sym, column_sort_perm|].
    apply perm_trans with (column ds'); [exact Hp|apply column_sort_perm].
  - apply (Permutation_in _ Hp Hin).
  - apply (Permutation_Forall Hp Hmin).
Qed.

(** The batch 0, 2, 45 of [test()], and the same timestamps in another order
    with a second column. *)
Lemma run_depends_on_timestamps_witness :
  snd (run m2 (of_times [0; 2; 45]))
  = snd (run m2 [mkVisit 45 [7]; mkVisit 0 [1]; mkVisit 2 [3]]).
Proof.
  apply (run_depends_on_timestamps m2).
  - reflexivity.
  - apply perm_trans with [0; 45; 2].
    + apply perm_skip, perm_swap.
    + apply perm_swap.
Defined.

(** ** Calling [run] again *)

Lemma lex_leb_total (xs ys : list Q) :
  lex_leb xs ys = false -> lex_leb ys xs = true.
Proof.
  revert ys. induction xs as [|x xs IH]; intros [|y ys]; simpl;
    try discriminate; try reflexivity.
  rewrite (Qeq_bool_comm y x).
  destruct (Qeq_bool x y); [apply IH|].
  intro H. qbool. apply Qle_bool_iff. lra.
Qed.

Lemma visit_leb_total (a b : visit) :
  visit_leb a b = false -> visit_le b a.
Proof.
  apply lex_leb_total.
Qed.

Lemma insert_HdRel (h v : visit) (l : list visit) :
  HdRel visit_le h l -> visit_le h v -> HdRel visit_le h (insert v l).
Proof.
  intros Hl Hv. destruct l as [|x l]; simpl; [now constructor|].
  destruct (visit_leb v x); constructor; [exact Hv|].
  now inversion Hl.
Qed.

Lemma insert_visit_sorted (v : visit) (l : list visit) :
  Sorted visit_le l -> Sorted visit_le (insert v l).
Proof.
  induction 1 as [|h l Hs IH Hh]; simpl.
  - repeat constructor.
  - destruct (visit_leb v h) eqn:E.
    + constructor; [now constructor|]. constructor. exact E.
    + constructor; [exact IH|].
      apply insert_HdRel; [exact Hh|]. now apply visit_leb_total.
Qed.

Lemma sort_visit_sorted (l : list visit) : Sorted visit_le (sort l).
Proof.
  induction l as [|h l IH]; simpl; [constructor|].
  now apply insert_visit_sorted.
Qed.

(** The sort leaves a sorted array as it is. *)
Lemma sort_fixed (l : list visit) : Sorted visit_le l -> sort l = l.
Proof.
  induction 1 as [|h l Hs IH Hh]; simpl; [reflexivity|].
  rewrite IH. destruct Hh as [|x l Hx]; simpl; [reflexivity|].
  unfold visit_le in Hx. now rewrite Hx.
Qed.

(** A second call of [run] on the array the first call left behind leaves
    the array as it is and gives the same result, for any configuration. *)
Theorem run_again (cfg : config) (ds : list visit) :
  run cfg (fst (run cfg ds)) = run cfg ds.
Proof.
  unfold run. cbn [fst].
  now rewrite (sort_fixed (sort ds) (sort_visit_sorted ds)).
Qed.

(** ** One more visit *)

Lemma insert_split (v : visit) (l : list visit) :
  exists l1 l2, l = l1 ++ l2 /\ insert v l = l1 ++ v :: l2.
Proof.
  induction l as [|h l (l1 & l2 & E1 & E2)]; simpl.
  - exists [], []. auto.
  - destruct (visit_leb v h).
    + exists [], (h :: l). auto.
    + exists (h :: l1), l2. simpl. now rewrite <- E1, E2.
Qed.

Lemma bump_nth (A B : list Q) (x : Q) (i : nat) :
  nth (bump (length A) i) (A ++ x :: B) 0 = nth i (A ++ B) 0.
Proof.
  unfold bump. destruct (i <? length A)%nat eqn:E.
  - apply Nat.ltb_lt in E. now rewrite !app_nth1.
  - apply Nat.ltb_ge in E. rewrite !app_nth2 by lia.
    replace (S i - length A)%nat with (S (i - length A)) by lia.
    reflexivity.
Qed.

Lemma bump_lt (k i j : nat) : (i < j)%nat -> (bump k i < bump k j)%nat.
Proof.
  unfold bump. intro H.
  destruct (Nat.ltb_spec i k), (Nat.ltb_spec j k); lia.
Qed.

Lemma bump_le (k i j : nat) : (i <= j)%nat -> (bump k i <= bump k j)%nat.
Proof.
  intro H. destruct (Nat.eq_dec i j) as [->|Hne]; [lia|].
  apply Nat.lt_le_incl, bump_lt. lia.
Qed.

Lemma bump_bound (k i n : nat) : (i < n)%nat -> (bump k i < S n)%nat.
Proof.
  unfold bump. destruct (i <? k)%nat; lia.
Qed.

Lemma consecutive_bump (k : nat) (ps : list (nat * nat)) :
  consecutive_pairs ps ->
  consecutive_pairs (map (fun p => (bump k (fst p), bump k (snd p))) ps).
Proof.
  induction ps as [|p ps IH]; [auto|].
  destruct ps as [|q ps]; [simpl; auto|].
  intros [H1 H2]. cbn [map]. cbn [map] in IH. split; [|now apply IH].
  simpl. now apply bump_le.
Qed.

(** One more timestamp in a sorted window loses no pair. *)
Lemma greedy_pairs_insert (gap : Q) (A B : list Q) (x : Q) :
  StronglySorted Qle (A ++ x :: B) ->
  (greedy_pairs gap (A ++ B) <= greedy_pairs gap (A ++ x :: B))%nat.
Proof.
  intro Hs.
  destruct (greedy_pairs_consecutive gap _ (A ++ B) (le_n _))
    as (ps & Hlen & Hall & Hc).
  rewrite <- Hlen.
  rewrite <- (length_map (fun p => (bump (length A) (fst p),
                                    bump (length A) (snd p))) ps).
  apply greedy_pairs_complete.
  - exact Hs.
  - apply Forall_map. eapply Forall_impl; [|exact Hall].
    intros p [[H1 H2] Hg]. split; cbn [fst snd].
    + split; [now apply bump_lt|].
      rewrite length_app in *. cbn [length].
      rewrite Nat.add_succ_r. now apply bump_bound.
    + now rewrite !bump_nth.
  - now apply consecutive_bump.
Qed.

(** A true result stays true when the batch gets one more visit that is not
    earlier than its earliest one. *)
Theorem run_more_visits (cfg : config) (ds : list visit) (v : visit)
        (t0 : Q) :
  valid cfg ->
  In t0 (column ds) -> Forall (Qle t0) (column ds) -> t0 <= time v ->
  snd (run cfg ds) = Return true ->
  snd (run cfg (v :: ds)) = Return true.
Proof.
  intros Hv Hin Hmin Hle Hrun.
  rewrite (run_minimum cfg ds t0 Hv Hin Hmin) in Hrun.
  rewrite (run_minimum cfg (v :: ds) t0 Hv);
    [|now right|now constructor].
  injection Hrun as Hrun. f_equal.
  pose proof (window_sorted (v :: ds) t0 (intervalLength cfg)) as Hs.
  revert Hrun Hs. unfold window_passes. cbn [sort].
  destruct (insert_split v (sort ds)) as (l1 & l2 & E1 & E2).
  rewrite E2, E1. unfold column, window.
  rewrite !map_app, !filter_app. cbn [map filter].
  set (A := filter (in_window t0 (intervalLength cfg)) (map time l1)).
  set (B := filter (in_window t0 (intervalLength cfg)) (map time l2)).
  destruct (in_window t0 (intervalLength cfg) (time v)); [|auto].
  intros H Hs. apply andb_prop in H. destruct H as [H1 H2].
  apply Z.leb_le in H1.
  apply andb_true_intro. split.
  - apply Z.leb_le. rewrite length_app in *. cbn [length]. lia.
  - destruct (pairs_enabled cfg); [|reflexivity].
    apply Z.leb_le in H2. apply Z.leb_le.
    pose proof (greedy_pairs_insert (minPairGap cfg) A B (time v) Hs). lia.
Qed.

(** The batch 0, 2, 45 of [test()] with one more visit at 1. *)
Lemma run_more_visits_witness :
  snd (run m2 (mkVisit 1 [] :: of_times [0; 2; 45])) = Return true.
Proof.
  apply (run_more_visits m2 (of_times [0; 2; 45]) (mkVisit 1 []) 0).
  - reflexivity.
  - left. reflexivity.
  - repeat constructor; discriminate.
  - discriminate.
  - reflexivity.
Defined.

(** ** A change of the time origin *)













(** ** A configuration that construction would reject *)



(** ** Construction with the default arguments *)


